(** * ImpDAR migration routines: shallow embedding and verified properties

    The Python module [impdar/lib/migration_routines.py] is embedded
    function by function.  numpy arrays are lists (a 2-D array is the list
    of its rows).  Geometry (times, positions, velocities) is computed over
    exact reals; array entries that carry the recorded samples are exact
    reals extended with one non-finite value (numpy's [nan] and [inf] are
    not told apart).  Python exceptions are values of [exn], and the
    radargram object that the routines mutate is threaded explicitly through
    a small state-and-exception monad.  Calls to [print] and to the timer
    have no counterpart. *)

From Stdlib Require Import String.
From Stdlib Require Import Reals Lra Lia Bool Arith ZArith List.
Import ListNotations.
Open Scope string_scope.
Open Scope list_scope.

Set Implicit Arguments.

(** ** Python exceptions and the state monad of the radargram object *)

Inductive exn : Type :=
| ValueError (msg : string)
| TypeError (msg : string)
| IndexError (msg : string)
| UnboundLocalError (var : string).

Inductive result (A : Type) : Type :=
| Return (a : A)
| Raise (e : exn).
Arguments Return {A} a.
Arguments Raise {A} e.

Definition rbind {A B} (m : result A) (k : A -> result B) : result B :=
  match m with
  | Return a => k a
  | Raise e => Raise e
  end.

Declare Scope py_scope.
Delimit Scope py_scope with py.
Notation "x <- m ;; k" := (rbind m (fun x => k))
  (at level 61, m at next level, right associativity) : py_scope.
Notation "'check' c 'orelse' e ;; k" := (if c then k else Raise e)
  (at level 61, c at next level, e at next level, right associativity) : py_scope.

(** ** List helpers standing for numpy indexing *)

Section ListOps.
Variable A : Type.

(** [l[i] = x] for an index in range; out of range the list is unchanged
    (the callers below only write in range). *)
Fixpoint upd (i : nat) (x : A) (l : list A) : list A :=
  match l, i with
  | [], _ => []
  | _ :: t, O => x :: t
  | h :: t, S i' => h :: upd i' x t
  end.

Lemma upd_length i x l : length (upd i x l) = length l.
Proof.
  revert i; induction l as [|h t IH]; intros [|i]; simpl; auto.
Qed.

Lemma nth_upd_same i x l d : (i < length l)%nat -> nth i (upd i x l) d = x.
Proof.
  revert i; induction l as [|h t IH]; intros [|i] H; simpl in *; try lia; auto.
  apply IH; lia.
Qed.

Lemma nth_upd_other i j x l d : i <> j -> nth j (upd i x l) d = nth j l d.
Proof.
  revert i j; induction l as [|h t IH]; intros [|i] [|j] H; simpl; auto; try lia.
Qed.
End ListOps.

(** ** [scipy.sparse.lil_matrix] and [Sp_Matr]

    The stencil is built with integer arguments ([Sp_Matr(dat.tnum,-2,1,1)])
    so its entries are integer-valued; they are kept in [Z].  A row is the
    dense list of its [N] entries, the value [0] standing for an entry that
    the LIL format does not store. *)

Definition lil := list (list Z).

Definition lil_matrix (N : nat) : lil := repeat (repeat 0%Z N) N.

(** [A[i,j] = v] *)
Definition setitem (i j : nat) (v : Z) (A : lil) : lil :=
  upd i (upd j v (nth i A [])) A.

(** [c * np.ones(n)]; a negative length is numpy's [ValueError]. *)
Definition scaled_ones (c : Z) (n : Z) : result (list Z) :=
  if (n <? 0)%Z then Raise (ValueError "negative dimensions are not allowed")
  else Return (repeat (c * 1)%Z (Z.to_nat n)).

(** [A.setdiag(values, k)]: the generic [_setdiag] loop of scipy, which
    assigns [values[i]] to [A[i, i+k]] (or [A[i-k, i]] when [k < 0]). *)
Definition setdiag (values : list Z) (k : Z) (A : lil) : result lil :=
  let N := Z.of_nat (length A) in
  if (((0 <? k) && (N <=? k)) || ((k <? 0) && (N <=? - k)))%Z%bool
  then Raise (ValueError "k exceeds matrix dimensions")
  else
    let max_index :=
      if (k <? 0)%Z
      then Z.to_nat (Z.min (Z.min (N + k) N) (Z.of_nat (length values)))
      else Z.to_nat (Z.min (Z.min N (N - k)) (Z.of_nat (length values))) in
    Return
      (fold_left
         (fun A' iv =>
            let '(i, v) := iv in
            if (k <? 0)%Z then setitem (i + Z.to_nat (- k)) i v A'
            else setitem i (i + Z.to_nat k) v A')
         (combine (seq 0 max_index) (firstn max_index values)) A).

(** [A[i, lo:hi] = v] *)
Definition setrow_range (i lo hi : nat) (v : Z) (A : lil) : lil :=
  fold_left (fun A' j => setitem i j v A') (seq lo (hi - lo)) A.

Open Scope py_scope.

Definition Sp_Matr (N : nat) (diag k1 k2 k3 k4 : Z) (nx : nat) : result lil :=
  let n := Z.of_nat N in
  let A := lil_matrix N in
  d0 <- scaled_ones diag n ;;
  A <- setdiag d0 0 A ;;
  d1 <- scaled_ones k1 (n - 1) ;;
  A <- setdiag d1 1 A ;;
  d2 <- scaled_ones k2 (n - 1) ;;
  A <- setdiag d2 (-1) A ;;
  d3 <- scaled_ones k3 (n - Z.of_nat nx) ;;
  A <- setdiag d3 (Z.of_nat nx) A ;;
  d4 <- scaled_ones k4 (n - Z.of_nat nx) ;;
  A <- setdiag d4 (- Z.of_nat nx) A ;;
  (* Dirichlet boundary conditions *)
  let A := setitem 0 0 1 A in
  let A := setrow_range 0 1 N 0 A in
  let A := setitem (N - 1) (N - 1) 1 A in
  let A := setrow_range (N - 1) 0 (N - 1) 1 A in
  Return A.

(** [stencil * v]: the sparse product visits the stored (non-zero)
    entries of each row only.  It is generic in the vector's scalars. *)
Section MatVec.
Variable V : Type.
Variable vzero : V.
Variable vadd : V -> V -> V.
Variable vscale : Z -> V -> V.

Definition row_dot (row : list Z) (v : list V) : V :=
  fold_left
    (fun acc av => let '(a, x) := av in
                   if (a =? 0)%Z then acc else vadd acc (vscale a x))
    (combine row v) vzero.

Definition lil_dot (A : lil) (v : list V) : list V :=
  map (fun row => row_dot row v) A.
End MatVec.

Definition lil_dotZ : lil -> list Z -> list Z := lil_dot 0%Z Z.add Z.mul.

Definition stencil_times_ones (N : nat) : result (list Z) :=
  A <- Sp_Matr N (-2) 1 1 0 0 0 ;;
  Return (lil_dotZ A (repeat 1%Z N)).


(** ** Real and complex scalars *)

Open Scope R_scope.

Definition Reqb (a b : R) : bool := if Req_EM_T a b then true else false.
Definition Rltb (a b : R) : bool := if Rlt_dec a b then true else false.
Definition Rleb (a b : R) : bool := if Rle_dec a b then true else false.

Record C : Type := mkC { Re : R; Im : R }.

Definition C0 : C := mkC 0 0.
Definition RtoC (x : R) : C := mkC x 0.
Definition Cadd (a b : C) : C := mkC (Re a + Re b) (Im a + Im b).
Definition Csub (a b : C) : C := mkC (Re a - Re b) (Im a - Im b).
Definition Cmul (a b : C) : C :=
  mkC (Re a * Re b - Im a * Im b) (Re a * Im b + Im a * Re b).
Definition Cscal (x : R) (a : C) : C := mkC (x * Re a) (x * Im a).
Definition Cconj (a : C) : C := mkC (Re a) (- Im a).
(** [np.cos(p) + 1j*np.sin(p)] *)
Definition cis (p : R) : C := mkC (cos p) (sin p).

(** Array entries: [None] is a non-finite float. *)
Definition xR : Type := option R.
Definition xC : Type := option C.

Definition xlift2 {A : Type} (f : A -> A -> A) (a b : option A) : option A :=
  match a, b with
  | Some x, Some y => Some (f x y)
  | _, _ => None
  end.

(** The arithmetic numpy applies to array entries, for the entry types in
    use: sums, differences, products with and quotients by a real. *)
Class Entry (V : Type) : Type := {
  ezero : V;
  eadd : V -> V -> V;
  esub : V -> V -> V;
  emul : R -> V -> V;
  ediv : V -> R -> V
}.

#[export] Instance Entry_R : Entry R :=
  {| ezero := 0; eadd := Rplus; esub := Rminus; emul := Rmult; ediv := Rdiv |}.

#[export] Instance Entry_xR : Entry xR :=
  {| ezero := Some 0;
     eadd := xlift2 Rplus;
     esub := xlift2 Rminus;
     emul := fun k => option_map (Rmult k);
     ediv := fun a k => option_map (fun x => x / k) a |}.

(** ** numpy helpers *)

Section Zip.
Variables X Y Z' : Type.
Variable f : X -> Y -> Z'.
Fixpoint map2 (a : list X) (b : list Y) : list Z' :=
  match a, b with
  | x :: a', y :: b' => f x y :: map2 a' b'
  | _, _ => []
  end.
End Zip.

(** [np.sum] of reals. *)
Definition np_sum (l : list R) : R := fold_right Rplus 0 l.

(** [np.nansum]: non-finite entries are left out of the sum. *)
Definition nansum (l : list xR) : R :=
  fold_right (fun x acc => match x with Some v => v + acc | None => acc end) 0 l.

(** Python's [max] on a non-empty sequence. *)
Definition py_max (l : list R) : R :=
  match l with
  | [] => 0
  | x :: t => fold_left Rmax t x
  end.

Definition np_max : list R -> R := py_max.

Definition np_min (l : list R) : R :=
  match l with
  | [] => 0
  | x :: t => fold_left Rmin t x
  end.

(** [np.argmin]: index of the first occurrence of the minimum. *)
Fixpoint argmin_from (l : list R) (i best : nat) (bv : R) : nat :=
  match l with
  | [] => best
  | x :: t => if Rltb x bv then argmin_from t (S i) i x
              else argmin_from t (S i) best bv
  end.

Definition np_argmin (l : list R) : nat :=
  match l with
  | [] => 0%nat
  | x :: t => argmin_from t 1 0 x
  end.

Fixpoint argmax_from (l : list R) (i best : nat) (bv : R) : nat :=
  match l with
  | [] => best
  | x :: t => if Rltb bv x then argmax_from t (S i) i x
              else argmax_from t (S i) best bv
  end.

Definition np_argmax (l : list R) : nat :=
  match l with
  | [] => 0%nat
  | x :: t => argmax_from t 1 0 x
  end.

Definition np_mean (l : list R) : R := np_sum l / INR (length l).

(** [np.diff] *)
Fixpoint np_diff (x : list R) : list R :=
  match x with
  | a :: (b :: _) as t => (b - a) :: np_diff t
  | _ => []
  end.

(** [np.gradient(f, x)] along one axis with coordinates [x] (second-order
    interior differences, first-order edges).  [f] gives the [n] samples
    along the axis, [dx = np.diff(x)]; numpy switches to the scalar-spacing
    formula when all spacings are equal. *)
Definition gradient_at {V} `{Entry V} (n : nat) (f : nat -> V) (dx : list R)
    (uniform : bool) (i : nat) : V :=
  if (i =? 0)%nat then
    ediv (esub (f 1%nat) (f 0%nat)) (nth 0 dx 0)
  else if (i =? n - 1)%nat then
    ediv (esub (f (n - 1)%nat) (f (n - 2)%nat))
         (if uniform then nth 0 dx 0 else nth (n - 2) dx 0)
  else if uniform then
    ediv (esub (f (i + 1)%nat) (f (i - 1)%nat)) (2 * nth 0 dx 0)
  else
    let dx1 := nth (i - 1) dx 0 in
    let dx2 := nth i dx 0 in
    let a := - dx2 / (dx1 * (dx1 + dx2)) in
    let b := (dx2 - dx1) / (dx1 * dx2) in
    let c := dx1 / (dx2 * (dx1 + dx2)) in
    eadd (eadd (emul a (f (i - 1)%nat)) (emul b (f i))) (emul c (f (i + 1)%nat)).

Definition np_size0 {V} (a : list (list V)) : nat := length a.
Definition np_size1 {V} (a : list (list V)) : nat := length (hd [] a).

(** Entry [a[i,j]] of a 2-D array; outside the array the value is the zero
    that [fft2] pads with. *)
Definition at2 {V} `{Entry V} (a : list (list V)) (i j : nat) : V :=
  nth j (nth i a []) ezero.

Definition gradient_spacing (x : list R) : result (list R * bool) :=
  let dx := np_diff x in
  match dx with
  | [] => Raise (IndexError "index 0 is out of bounds for axis 0 with size 0")
  | d0 :: _ => Return (dx, forallb (fun d => Reqb d d0) dx)
  end.

Definition distances_msg : string :=
  "when 1d, distances must match the length of the corresponding dimension".

(** [np.gradient(f, x, axis=0)] on a 2-D array. *)
Definition np_gradient_axis0 {V} `{Entry V} (f : list (list V)) (x : list R)
  : result (list (list V)) :=
  check (length x =? np_size0 f)%nat orelse ValueError distances_msg ;;
  sp <- gradient_spacing x ;;
  let n := np_size0 f in
  Return (map (fun i =>
            map (fun j => gradient_at n (fun k => at2 f k j) (fst sp) (snd sp) i)
                (seq 0 (np_size1 f)))
          (seq 0 n)).

(** [np.gradient(f, x)] on a 1-D array. *)
Definition np_gradient1 (f x : list R) : result (list R) :=
  check (length x =? length f)%nat orelse ValueError distances_msg ;;
  sp <- gradient_spacing x ;;
  Return (map (gradient_at (length f) (fun k => nth k f 0) (fst sp) (snd sp))
              (seq 0 (length f))).

(** ** The radargram object *)

Record Radargram : Type := mkRadargram {
  data : list (list xR);
  snum : nat;
  tnum : nat;
  dt : R;
  travel_time : list R;
  trace_int : list R;
  dist : list R
}.

(** [dat.data = d] *)
Definition set_data (d : list (list xR)) (dat : Radargram) : Radargram :=
  mkRadargram d (snum dat) (tnum dat) (dt dat) (travel_time dat)
              (trace_int dat) (dist dat).

(** A call on the object [dat] yields a value or an exception, together
    with the state [dat] is left in.  The Python functions [return dat]:
    the returned reference is the object itself, i.e. the final state. *)
Definition M (A : Type) : Type := Radargram -> result A * Radargram.

Definition ret {A} (a : A) : M A := fun dat => (Return a, dat).
Definition bind {A B} (m : M A) (k : A -> M B) : M B :=
  fun dat => match m dat with
             | (Return a, dat') => k a dat'
             | (Raise e, dat') => (Raise e, dat')
             end.
Definition lift {A} (r : result A) : M A := fun dat => (r, dat).
Definition self : M Radargram := fun dat => (Return dat, dat).
Definition assign_data (d : list (list xR)) : M unit :=
  fun dat => (Return tt, set_data d dat).

Declare Scope m_scope.
Delimit Scope m_scope with m.
Notation "x <-- m ;; k" := (bind m (fun x => k))
  (at level 61, m at next level, right associativity) : m_scope.
Notation "m ;;; k" := (bind m (fun _ => k))
  (at level 61, right associativity) : m_scope.

(** The errors the module raises by itself, under the names of the error
    taxonomy.  [InvalidVelocitySpec] is the only complaint the module has
    about a velocity profile. *)
Definition ShapeMismatch : exn :=
  ValueError "The input array must be of size (tnum,snum)".
Definition OutOfRange : exn :=
  ValueError "Two-way travel time array extends outside of interpolation range".
Definition DistanceUnset : exn :=
  ValueError "The distance vector was never set.".
Definition InvalidVelocitySpec : exn :=
  ValueError "Interpolated velocity profile is not the length of the number of samples in a trace.".
Definition VelocityFileUnreadable (fn : string) : exn :=
  TypeError ("File " ++ fn ++ " was given for input velocity array, but cannot be loaded. Please reformat.").

(** [np.size(dat.data,1) != dat.tnum or np.size(dat.data,0) != dat.snum] *)
Definition shape_mismatch (dat : Radargram) : bool :=
  negb (np_size1 (data dat) =? tnum dat)%nat
  || negb (np_size0 (data dat) =? snum dat)%nat.

Definition check_shape : M unit :=
  fun dat => if shape_mismatch dat then (Raise ShapeMismatch, dat)
             else (Return tt, dat).

(** [dat.travel_time/1e6] *)
Definition twtt_of (dat : Radargram) : list R :=
  map (fun t => t / 1e6) (travel_time dat).

(** ** Kirchhoff migration *)

Section Kirchhoff.
Variable dat : Radargram.
Variable vel : R.
Variable nearfield : bool.
Variable gradD : list (list xR).

(** The body of the two loops for trace [xi] and sample [ti]: the value
    stored in [migdata[ti,xi]]. *)
Definition kirchhoff_pixel (xi ti : nat) : R :=
  let x := nth xi (dist dat) 0 in
  let t := nth ti (travel_time dat) 0 / 1e6 in
  let z := vel * t / 2 in
  let rs := map (fun d => sqrt ((d - x) ^ 2 + z ^ 2)) (dist dat) in
  let costheta := map (fun r => z / r) rs in
  let Didx :=
    map (fun r => np_argmin (map (fun tj => Rabs (tj - 2 * r / vel))
                                 (twtt_of dat))) rs in
  let outside := map (fun r => Rltb (py_max (twtt_of dat)) (2 * r / vel)) rs in
  let pick (a : list (list xR)) : list xR :=
    map2 (fun (o : bool) v => if o then Some 0 else v) outside
         (map2 (fun i k => at2 a k i) (seq 0 (length Didx)) Didx) in
  let gradDhyp := pick gradD in
  let integral :=
    nansum (map2 (fun g c => option_map (fun g => g * c / vel) g)
                 gradDhyp costheta) in
  let integral :=
    if nearfield then
      let Dhyp := pick (data dat) in
      integral +
      nansum (map2 (fun dc r => option_map (fun dc => dc / r ^ 2) dc)
                   (map2 (fun d c => option_map (fun d => d * c) d) Dhyp costheta)
                   rs)
    else integral in
  1 / (2 * PI) * integral.

Definition kirchhoff_migdata : list (list xR) :=
  map (fun ti => map (fun xi => Some (kirchhoff_pixel xi ti))
                     (seq 0 (tnum dat)))
      (seq 0 (snum dat)).
End Kirchhoff.

Open Scope m_scope.

Definition migrationKirchhoff (vel : R) (nearfield : bool) : M unit :=
  check_shape ;;;
  dat <-- self ;;
  gradD <-- lift (np_gradient_axis0 (data dat) (twtt_of dat)) ;;
  assign_data (kirchhoff_migdata dat vel nearfield gradD).

(** ** Discrete Fourier transforms ([np.fft])

    The transforms are generic in the entries of the transformed array: they
    are used on arrays with possibly non-finite entries ([xC]) and, in the
    proofs, on their finite counterparts ([C]). *)

Definition twiddle (sign : R) (N k n : nat) : C :=
  cis (sign * (2 * PI * INR k * INR n / INR N)).

Section DFT.
Variable V : Type.
Variable vzero : V.
Variable vadd : V -> V -> V.
Variable vmul : C -> V -> V.

Definition vsum (l : list V) : V := fold_right vadd vzero l.

(** [np.fft.fft(x)] *)
Definition np_fft (x : list V) : list V :=
  let N := length x in
  map (fun k => vsum (map (fun n => vmul (twiddle (-1) N k n) (nth n x vzero))
                          (seq 0 N)))
      (seq 0 N).

(** [np.fft.ifft(x)] *)
Definition np_ifft (x : list V) : list V :=
  let N := length x in
  map (fun n => vmul (RtoC (1 / INR N))
                 (vsum (map (fun k => vmul (twiddle 1 N k n) (nth k x vzero))
                            (seq 0 N))))
      (seq 0 N).

(** The 2-D sum over the [(n0, n1)] array whose entries are [a m n]. *)
Definition dft2 (sign : R) (n0 n1 : nat) (a : nat -> nat -> V) : list (list V) :=
  map (fun k =>
    map (fun l =>
      vsum (map (fun m =>
        vsum (map (fun n =>
                vmul (Cmul (twiddle sign n0 k m) (twiddle sign n1 l n)) (a m n))
              (seq 0 n1)))
        (seq 0 n0)))
      (seq 0 n1))
    (seq 0 n0).

(** [np.fft.ifft2(a)] *)
Definition np_ifft2 (a : list (list V)) : list (list V) :=
  let n0 := length a in
  let n1 := length (hd [] a) in
  map (map (vmul (RtoC (1 / (INR n0 * INR n1)))))
      (dft2 1 n0 n1 (fun m n => nth n (nth m a []) vzero)).
End DFT.

Definition xCadd : xC -> xC -> xC := xlift2 Cadd.
Definition xCmul (c : C) : xC -> xC := option_map (Cmul c).
Definition xCmulx : xC -> xC -> xC := xlift2 Cmul.

Definition fft_points_msg : string :=
  "Invalid number of FFT data points (0) specified.".

(** [np.fft.fft2(a, (n0, n1))] of a real array: [a] is zero-padded to the
    requested shape (the callers never ask for a smaller one). *)
Definition np_fft2 (a : list (list xR)) (n0 n1 : nat) : result (list (list xC)) :=
  check ((0 <? n0) && (0 <? n1))%nat orelse ValueError fft_points_msg ;;
  Return (dft2 (Some C0) xCadd xCmul (-1) n0 n1
               (fun m n => option_map RtoC (at2 a m n))).

(** [np.fft.fftfreq(n, d)] *)
Definition np_fftfreq (n : nat) (d : R) : list R :=
  let val := 1 / (INR n * d) in
  let N := ((n - 1) / 2 + 1)%nat in
  map (fun i => (if (i <? N)%nat then INR i else INR i - INR n) * val) (seq 0 n).

(** [2**(np.ceil(np.log(n)/np.log(2))).astype(int)]: the next power of two
    (for [n = 0] numpy evaluates [2**(-inf)], i.e. [0]). *)
Definition next_pow2 (n : nat) : nat :=
  if (n =? 0)%nat then 0%nat else (2 ^ Nat.log2_up n)%nat.

(** [a.real], [a.imag] and [re + 1j*im] on array entries *)
Definition xRe : xC -> xR := option_map Re.
Definition xIm : xC -> xR := option_map Im.
Definition xcomplex (re im : xR) : xC :=
  match re, im with
  | Some a, Some b => Some (mkC a b)
  | _, _ => None
  end.

(** ** Stolt migration *)

Section Stolt.
(** [scipy.interpolate.interp2d(x, y, z)]: the interpolant of the gridded
    values [z] over the axes [x], [y], called at a point.  It is library
    code; the routine is embedded for an arbitrary interpolant. *)
Variable interp2d : list R -> list R -> list (list xR) -> R -> R -> xR.

Definition stolt_KK (vel : R) (kx ws : list R) (FK : list (list xC))
  : list (list xC) :=
  let interp_real := interp2d kx ws (map (map xRe) FK) in
  let interp_imag := interp2d kx ws (map (map xIm) FK) in
  map (fun wz =>
         let kzj := wz * 2 / vel in
         map (fun kxi =>
                (* migration conversion to wavenumber *)
                let wsj := vel / 2 * sqrt (kzj ^ 2 + kxi ^ 2) in
                xcomplex (interp_real kxi wsj) (interp_imag kxi wsj))
             kx)
      ws.

(** [kZ/np.sqrt(kX**2.+kZ**2.)] on the mesh of [kx] and [kz] *)
Definition stolt_scaling (kx kz : list R) : list (list R) :=
  map (fun kZ => map (fun kX => kZ / sqrt (kX ^ 2 + kZ ^ 2)) kx) kz.

(** The array [np.real(np.fft.ifft2(KK))] of the routine. *)
Definition stolt_migrated (dat : Radargram) (vel : R)
  : result (list (list xR)) :=
  let nt := next_pow2 (snum dat) in
  let nx := next_pow2 (tnum dat) in
  FK <- np_fft2 (data dat) nt nx ;;
  let ws := map (Rmult (2 * PI)) (np_fftfreq nt (dt dat)) in
  let kx := map (Rmult (2 * PI)) (np_fftfreq nx (np_mean (trace_int dat))) in
  let KK := stolt_KK vel kx ws FK in
  let kz := map (fun w => w * 2 / vel) ws in
  let KK := map2 (map2 (fun k s => option_map (Cscal s) k))
                 KK (stolt_scaling kx kz) in
  (* the DC frequency should be 0. *)
  let KK := upd 0 (upd 0 (Some C0) (nth 0 KK [])) KK in
  Return (map (map xRe) (np_ifft2 (Some C0) xCadd xCmul KK)).

(** [a[:s,:t]] *)
Definition crop {V} (s t : nat) (a : list (list V)) : list (list V) :=
  firstn s (map (firstn t) a).

Definition migrationStolt (vel : R) : M unit :=
  check_shape ;;;
  dat <-- self ;;
  migrated <-- lift (stolt_migrated dat vel) ;;
  assign_data migrated ;;;
  (* cut array to input matrix dimensions *)
  dat <-- self ;;
  assign_data (crop (snum dat) (tnum dat) (data dat)).
End Stolt.

(** ** Velocity profiles *)

(** The velocity argument: a constant, or a 2-D array with columns
    velocity, depth and (optionally) lateral position. *)
Inductive velocity : Type :=
| VelConst (v : R)
| VelArray (rows : list (list R)).

(** The migration velocity on the data grid: a constant, a value per
    sample, or a value per sample and trace. *)
Inductive vfield : Type :=
| VScalar (v : R)
| V1D (l : list R)
| V2D (m : list (list R)).

Definition interp_below_msg : string :=
  "A value in x_new is below the interpolation range.".
Definition interp_above_msg : string :=
  "A value in x_new is above the interpolation range.".

(** [scipy.interpolate.interp1d(x, y)(x_new)]: linear interpolation with
    [bounds_error] set; the points are sorted by abscissa first. *)
Fixpoint insert_pt (p : R * R) (l : list (R * R)) : list (R * R) :=
  match l with
  | [] => [p]
  | q :: t => if Rleb (fst p) (fst q) then p :: l else q :: insert_pt p t
  end.

Definition sort_pts (l : list (R * R)) : list (R * R) :=
  fold_right insert_pt [] l.

Fixpoint interp_eval (pts : list (R * R)) (x : R) : R :=
  match pts with
  | [] => 0
  | p0 :: t =>
      match t with
      | [] => snd p0
      | p1 :: rest =>
          if Rleb x (fst p1) || (match rest with [] => true | _ => false end)
          then (snd p1 - snd p0) / (fst p1 - fst p0) * (x - fst p0) + snd p0
          else interp_eval t x
      end
  end.

Definition interp1d (x y x_new : list R) : result (list R) :=
  check (length x =? length y)%nat orelse
    ValueError "x and y arrays must be equal in length along interpolation axis." ;;
  check (2 <=? length x)%nat orelse
    ValueError "x and y arrays must have at least 2 entries" ;;
  let pts := sort_pts (combine x y) in
  if existsb (fun v => Rltb v (fst (hd (0, 0) pts))) x_new
  then Raise (ValueError interp_below_msg)
  else if existsb (fun v => Rltb (fst (last pts (0, 0))) v) x_new
  then Raise (ValueError interp_above_msg)
  else Return (map (interp_eval pts) x_new).

(** [np.trapz(y, x)] *)
Definition np_trapz (y x : list R) : R :=
  np_sum (map2 (fun d s => d * s / 2) (np_diff x)
               (map2 Rplus (tl y) (removelast y))).

(** [np.linspace(start, stop, num)] *)
Definition np_linspace (start stop : R) (num : nat) : list R :=
  map (fun i => INR i * ((stop - start) / INR (num - 1)) + start) (seq 0 num).

(** [scipy.interpolate.griddata(points, values, xi, method='nearest')] at
    one query point: the value at the closest input point. *)
Definition griddata_nearest (px pz values : list R) (x z : R) : R :=
  nth (np_argmin (map2 (fun a b => (a - x) ^ 2 + (b - z) ^ 2) px pz)) values 0.

Section Layered.
Variable dat : Radargram.
Variables vel_v0 vel_z0 : list R.

(** The depth array for maximum possible penetration. *)
Definition layered_zs : list R :=
  let twtt := twtt_of dat in
  let zs := map (fun t => np_max vel_v0 / 2 * t) twtt in
  upd 0 (nth 0 twtt 0 * nth 0 vel_v0 0 / 2) zs.

(** The input points after pushing them to the boundaries of [zs]. *)
Definition layered_points : list R * list R :=
  let zs := layered_zs in
  let '(vel_v, vel_z) :=
    if Rltb (np_min zs) (nth 0 vel_z0 0)
    then (nth (np_argmin vel_z0) vel_v0 0 :: vel_v0, np_min zs :: vel_z0)
    else (vel_v0, vel_z0) in
  if Rltb (last vel_z 0) (np_max zs)
  then (vel_v ++ [nth (np_argmax vel_z) vel_v 0], vel_z ++ [np_max zs])
  else (vel_v, vel_z).

(** [tofz]: the times t(z) on the depth array. *)
Definition layered_tofz : result (list R) :=
  check (0 <? length (twtt_of dat))%nat orelse
    IndexError "index 0 is out of bounds for axis 0 with size 0" ;;
  let '(vel_v, vel_z) := layered_points in
  let vel_t := map2 (fun z v => 2 * z / v) vel_z vel_v in
  interp1d vel_z vel_t layered_zs.

Definition layered_vmig : result (list R) :=
  let twtt := twtt_of dat in
  tofz <- layered_tofz ;;
  zoft <- interp1d tofz layered_zs twtt ;;
  check negb (Rltb (last tofz 0) (last twtt 0)) orelse OutOfRange ;;
  g <- np_gradient1 zoft twtt ;;
  Return (map (Rmult 2) g).
End Layered.

Section Gridded.
Variable dat : Radargram.
Variables vel_v vel_z vel_x : list R.

Definition gridded_zs : list R :=
  let twtt := twtt_of dat in
  map (fun z => z / 2)
      (np_linspace (np_min vel_v * nth 0 twtt 0)
                   (np_max vel_v * last twtt 0) (snum dat)).

(** Column [i] of the nearest-neighbour mesh [VS]. *)
Definition gridded_VS_col (i : nat) : list R :=
  map (griddata_nearest vel_x vel_z vel_v (nth i (dist dat) 0)) gridded_zs.

(** The body of the loop over traces: the column [vmig[:,i]]. *)
Definition gridded_column (i : nat) : result (list R) :=
  let twtt := twtt_of dat in
  let zs := gridded_zs in
  check (i <? length (dist dat))%nat orelse
    IndexError "index is out of bounds for axis 1" ;;
  let col_z := zs in
  let col_v := gridded_VS_col i in
  let vel_t :=
    map (fun j => 2 * np_trapz (map (fun v => 1 / v) (firstn j col_v))
                               (firstn j col_z))
        (seq 0 (snum dat)) in
  tofz <- interp1d col_z vel_t zs ;;
  zoft <- interp1d tofz zs twtt ;;
  check negb (Rltb (last tofz 0) (last twtt 0)) orelse OutOfRange ;;
  g <- np_gradient1 zoft twtt ;;
  check (length g =? length zs)%nat orelse
    ValueError "could not broadcast input array" ;;
  Return (map (Rmult 2) g).

Fixpoint gridded_columns (idxs : list nat) : result (list (list R)) :=
  match idxs with
  | [] => Return []
  | i :: rest =>
      c <- gridded_column i ;;
      cs <- gridded_columns rest ;;
      Return (c :: cs)
  end.

Definition gridded_vmig : result (list (list R)) :=
  check (0 <? length (twtt_of dat))%nat orelse
    IndexError "index 0 is out of bounds for axis 0 with size 0" ;;
  check negb (forallb (fun d => Reqb d 0) (dist dat)) orelse DistanceUnset ;;
  cols <- gridded_columns (seq 0 (tnum dat)) ;;
  Return (map (fun k =>
            map (fun i => if (i <? tnum dat)%nat then nth k (nth i cols []) 0
                          else 0)
                (seq 0 (length (dist dat))))
          (seq 0 (length gridded_zs))).
End Gridded.

Definition column (j : nat) (rows : list (list R)) : list R :=
  map (fun r => nth j r 0) rows.

Definition getVelocityProfile (dat : Radargram) (vels_in : velocity)
  : result vfield :=
  match vels_in with
  | VelConst v => Return (VScalar v)
  | VelArray rows =>
      let nlay := length rows in
      let dimension := length (hd [] rows) in
      check (1 <=? dimension)%nat orelse
        IndexError "index 0 is out of bounds for axis 1 with size 0" ;;
      let vel_v := column 0 rows in
      check (2 <=? dimension)%nat orelse
        IndexError "index 1 is out of bounds for axis 1 with size 1" ;;
      let vel_z := column 1 rows in
      if ((1 <? nlay) && (dimension =? 2))%nat then
        vmig <- layered_vmig dat vel_v vel_z ;;
        Return (V1D vmig)
      else if ((1 <? nlay) && (dimension =? 3))%nat then
        let vel_x := column 2 rows in
        vmig <- gridded_vmig dat vel_v vel_z vel_x ;;
        Return (V2D vmig)
      else Raise (UnboundLocalError "vmig")
  end.

(** ** Phase-shift migration *)

Definition xCsub : xC -> xC -> xC := xlift2 Csub.

(** [stencil * FFX] *)
Definition stencil_dot (A : lil) (v : list xC) : list xC :=
  lil_dot (Some C0) xCadd (fun a => xCmul (RtoC (IZR a))) A v.

Definition fourierFiniteDiff (dat : Radargram) (vs : list R) (w : R)
    (FFX FFX_last : list xC) (stencil : lil) (alpha beta : R) : list xC :=
  (* Coefficients *)
  let dx := np_mean (trace_int dat) in
  let coeff1 : list xC :=
    map (fun v => let d := 4 * w * dx ^ 2 in
                  if Reqb d 0 then None
                  else Some (mkC 0 (- (dt dat * alpha * v ^ 2 / d)))) vs in
  let coeff2 : list xC :=
    map (fun v => let d := 4 * w ^ 2 * dx ^ 2 in
                  if Reqb d 0 then None
                  else Some (RtoC (- beta * v ^ 2 / d))) vs in
  (* Update equation, explicit backward Euler *)
  let LF := stencil_dot stencil FFX in
  let LL := stencil_dot stencil FFX_last in
  map2 xCadd
       (map2 xCadd FFX_last (map2 xCmulx coeff1 LF))
       (map2 xCmulx coeff2 (map2 xCsub LF LL)).

(** The state of the loops of [phaseShift].  The last two fields are ghost
    state: the iteration [(itau, iw)] that computed the current [FFX_last],
    and the log of the calls of [fourierFiniteDiff], each with the
    iteration it is made in and the origin of the [FFX_last] it is given. *)
Record ps_state : Type := mkPS {
  ps_FK : list (list xC);
  ps_TK : list (list xC);
  ps_FFX_last : list xC;
  ps_last_from : option (nat * nat);
  ps_calls : list ((nat * nat) * option (nat * nat))
}.

(** [w = ws[iw]], replaced by [1e-10/dat.dt] when it is zero. *)
Definition omega (dat : Radargram) (ws : list R) (iw : nat) : R :=
  let w := nth iw ws 0 in
  if Reqb w 0 then 1e-10 / dt dat else w.

(** The real part of the complex square root of a real number. *)
Definition Re_csqrt (c : R) : R := if Rleb 0 c then sqrt c else 0.

(** [TK[itau, ik] += FFK] *)
Definition add_at (ik : list nat) (FFK row : list xC) : list xC :=
  fold_left (fun r jf => upd (fst jf) (xCadd (nth (fst jf) r (Some C0)) (snd jf)) r)
            (combine ik FFK) row.

(** Uniform velocity: the body of the loop over frequencies. *)
Definition constant_step (dat : Radargram) (vmig : R) (kx ws : list R)
    (TK_FK : list (list xC) * list (list xC)) (iw : nat)
  : list (list xC) * list (list xC) :=
  let '(TK, FK) := TK_FK in
  let w := omega dat ws iw in
  (* remove frequencies outside of the domain *)
  let vkx2 := map (fun k => (vmig * k / 2) ^ 2) kx in
  let ik := filter (fun j => Rltb (nth j vkx2 0) (w ^ 2)) (seq 0 (length kx)) in
  let FFK := map (fun j => nth j (nth iw FK []) (Some C0)) ik in
  (* get the phase for shift *)
  let phase := map (fun j => - w * dt dat * sqrt (1 - nth j vkx2 0 / w ^ 2)) ik in
  let cp := map (fun p => Cconj (cis p)) phase in
  let '(TK, _) :=
    fold_left
      (fun (acc : list (list xC) * list xC) itau =>
         let '(TK, FFK) := acc in
         let FFK := map2 xCmul cp FFK in
         (upd itau (add_at ik FFK (nth itau TK [])) TK, FFK))
      (seq 0 (snum dat)) (TK, FFK) in
  (TK, FK).

(** [vmig[itau]]: a number (layered) or a row (gridded). *)
Inductive vrow : Type :=
| RowScalar (v : R)
| RowVector (l : list R).

(** Layered or lateral velocity: the body of the loop over frequencies at
    output time [itau]. *)
Definition variable_step (dat : Radargram) (kx ws : list R) (stencil : lil)
    (vm : vrow) (itau : nat) (st : ps_state) (iw : nat) : ps_state :=
  let tau := nth itau (travel_time dat) 0 / 1e6 in
  let w := omega dat ws iw in
  (* foreground and background velocities *)
  let vbg := match vm with
             | RowVector l => np_min l
             | RowScalar v => v
             end in
  (* retardation term *)
  let coss := map (fun k => 1 - (0.5 * vbg * k / w) ^ 2) kx in
  let phase := map (fun c => - w * dt dat * Re_csqrt c) coss in
  let cshift := map (fun p => Cconj (cis p)) phase in
  let FKiw := map2 (fun f c => xCmul c f) (nth iw (ps_FK st) []) cshift in
  let '(FKiw, FFX_last, from, calls) :=
    match vm with
    | RowVector l =>
        let vfg := map (fun v => v - vbg) l in
        (* inverse fourier transform to frequency-space domain *)
        let FFX := np_ifft (Some C0) xCadd xCmul FKiw in
        (* thin-lens term *)
        let phase2 : list xR :=
          map (fun vf => if Reqb vbg 0 || Reqb vf 0 then None
                         else Some ((1 / vbg - 2 / vf) * w * dt dat)) vfg in
        let cshift2 := map (option_map cis) phase2 in
        let FFX := map2 xCmulx FFX cshift2 in
        (* diffraction term, finite difference operator *)
        let FFX :=
          if (0 <? itau)%nat
          then fourierFiniteDiff dat vfg w FFX (ps_FFX_last st) stencil 0.5 0.25
          else FFX in
        (np_fft (Some C0) xCadd xCmul FFX, FFX, Some (itau, iw),
         if (0 <? itau)%nat
         then ps_calls st ++ [((itau, iw), ps_last_from st)]
         else ps_calls st)
    | RowScalar _ => (FKiw, ps_FFX_last st, ps_last_from st, ps_calls st)
    end in
  (* zero if outside domain *)
  let thr := (tau / last (travel_time dat) 0 / 1e6) ^ 2 in
  let FKiw := map2 (fun f c => if Rleb c thr then Some C0 else f) FKiw coss in
  (* sum over all frequencies *)
  let TK := upd itau (map2 xCadd (nth itau (ps_TK st) []) FKiw) (ps_TK st) in
  mkPS (upd iw FKiw (ps_FK st)) TK FFX_last from calls.

Definition vmig_row (vmig : vfield) (itau : nat) : vrow :=
  match vmig with
  | V2D m => RowVector (nth itau m [])
  | V1D l => RowScalar (nth itau l 0)
  | VScalar v => RowScalar v
  end.

Definition variable_loops (dat : Radargram) (vmig : vfield) (kx ws : list R)
    (stencil : lil) (st : ps_state) : ps_state :=
  fold_left
    (fun st itau =>
       fold_left (variable_step dat kx ws stencil (vmig_row vmig itau) itau)
                 (seq 0 (length ws)) st)
    (seq 0 (snum dat)) st.

(** The loops of [phaseShift], up to the final cut and normalisation. *)
Definition phaseShift_loops (dat : Radargram) (vmig : vfield) (kx ws : list R)
    (FK : list (list xC)) : result ps_state :=
  (* the time-wavenumber array, filled with complex zeros *)
  let TK := repeat (repeat (Some C0) (length kx)) (snum dat) in
  let st := mkPS FK TK [] None [] in
  match vmig with
  | VScalar v =>
      let '(TK, FK) :=
        fold_left (constant_step dat v kx ws) (seq 0 (length ws)) (TK, FK) in
      Return (mkPS FK TK [] None [])
  | V1D l =>
      check (length l =? snum dat)%nat orelse InvalidVelocitySpec ;;
      check (0 <? length l)%nat orelse
        IndexError "index 0 is out of bounds for axis 0 with size 0" ;;
      Return (variable_loops dat vmig kx ws [] st)
  | V2D m =>
      check (length m =? snum dat)%nat orelse InvalidVelocitySpec ;;
      check (0 <? length m)%nat orelse
        IndexError "index 0 is out of bounds for axis 0 with size 0" ;;
      (* finite difference stencil *)
      stencil <- Sp_Matr (tnum dat) (-2) 1 1 0 0 0 ;;
      Return (variable_loops dat vmig kx ws stencil st)
  end.

Definition Cdivr (r : R) (c : C) : C := mkC (Re c / r) (Im c / r).

Definition phaseShift (dat : Radargram) (vmig : vfield) (kx ws : list R)
    (FK : list (list xC)) : result (list (list xC)) :=
  st <- phaseShift_loops dat vmig kx ws FK ;;
  (* cut to original array size, normalise for inverse FFT *)
  Return (map (fun row => map (option_map (Cdivr (INR (snum dat))))
                              (firstn (tnum dat) row))
              (ps_TK st)).

Section PhaseShift.
(** [np.genfromtxt]: the table read from a file, if it can be read. *)
Variable genfromtxt : string -> option velocity.

Definition phaseshift_migrated (dat : Radargram) (vel : velocity)
    (vel_fn : option string) : result (list (list xR)) :=
  let nt := next_pow2 (snum dat) in
  (* frequencies and wavenumbers *)
  let kx := map (Rmult (2 * PI))
                (np_fftfreq (tnum dat) (np_mean (trace_int dat))) in
  let ws := map (Rmult (2 * PI)) (np_fftfreq nt (dt dat)) in
  FK <- np_fft2 (data dat) nt (tnum dat) ;;
  (* velocity structure from input *)
  vel <- match vel_fn with
         | None => Return vel
         | Some fn => match genfromtxt fn with
                      | Some v => Return v
                      | None => Raise (VelocityFileUnreadable fn)
                      end
         end ;;
  vmig <- getVelocityProfile dat vel ;;
  TK <- phaseShift dat vmig kx ws FK ;;
  Return (map (fun row => map xRe (np_ifft (Some C0) xCadd xCmul row)) TK).

Definition migrationPhaseShift (vel : velocity) (vel_fn : option string)
  : M unit :=
  check_shape ;;;
  dat <-- self ;;
  migrated <-- lift (phaseshift_migrated dat vel vel_fn) ;;
  assign_data migrated.
End PhaseShift.

(** * Properties *)

(** ** The finite-difference stencil *)

(** The two default second off-diagonals ([k3 = k4 = 0] at offset
    [nx = 0]) are written onto the main diagonal after it has been set. *)
Example Sp_Matr_5 :
  Sp_Matr 5 (-2) 1 1 0 0 0 =
  Return [[1; 0; 0; 0; 0]; [1; 0; 1; 0; 0]; [0; 1; 0; 1; 0];
          [0; 0; 1; 0; 1]; [1; 1; 1; 1; 1]]%Z.
Proof. reflexivity. Qed.

(** With genuine second off-diagonals the main diagonal is kept. *)
Example Sp_Matr_5_offset2 :
  Sp_Matr 5 (-2) 1 1 7 7 2 =
  Return [[1; 0; 0; 0; 0]; [1; -2; 1; 7; 0]; [7; 1; -2; 1; 7];
          [0; 7; 1; -2; 1]; [1; 1; 1; 1; 1]]%Z.
Proof. reflexivity. Qed.

(** C1: the stencil [Sp_Matr(N,-2,1,1)] applied to the all-ones vector.
    At [N = 3] the product is [[1, 2, 3]]: the interior entry is [2], not
    the [0] of a second difference, because the diagonal [-2] has been
    overwritten with zeros. *)
Theorem stencil_times_ones_3 :
  stencil_times_ones 3 = Return [1; 2; 3]%Z
  /\ stencil_times_ones 3 <> Return [1; 0; 3]%Z.
Proof. split; [reflexivity | discriminate]. Qed.

Example stencil_times_ones_6 :
  stencil_times_ones 6 = Return [1; 2; 2; 2; 2; 6]%Z.
Proof. reflexivity. Qed.

(** ** The shape check *)

Lemma shape_mismatch_true dat :
  (np_size0 (data dat), np_size1 (data dat)) <> (snum dat, tnum dat) ->
  shape_mismatch dat = true.
Proof.
  intros H. unfold shape_mismatch.
  destruct (Nat.eqb_spec (np_size1 (data dat)) (tnum dat)) as [E1|E1];
    destruct (Nat.eqb_spec (np_size0 (data dat)) (snum dat)) as [E0|E0];
    simpl; auto.
Qed.

Lemma shape_mismatch_false dat :
  np_size0 (data dat) = snum dat -> np_size1 (data dat) = tnum dat ->
  shape_mismatch dat = false.
Proof.
  intros H0 H1. unfold shape_mismatch.
  rewrite H0, H1, !Nat.eqb_refl. reflexivity.
Qed.

Lemma check_shape_raises A (k : M A) dat :
  shape_mismatch dat = true ->
  (check_shape ;;; k) dat = (Raise ShapeMismatch, dat).
Proof. intros H. unfold bind, check_shape. rewrite H. reflexivity. Qed.

Lemma check_shape_passes A (k : M A) dat :
  shape_mismatch dat = false ->
  (check_shape ;;; k) dat = k dat.
Proof. intros H. unfold bind, check_shape. rewrite H. reflexivity. Qed.

(** C2: on a radargram whose samples array is not of shape
    [(snum, tnum)], each of the three migrations raises the shape error and
    leaves the radargram, hence its samples, as it was. *)
Theorem shape_mismatch_raises
    (interp2d : list R -> list R -> list (list xR) -> R -> R -> xR)
    (genfromtxt : string -> option velocity)
    (dat : Radargram) (vel : R) (nearfield : bool)
    (vspec : velocity) (vel_fn : option string) :
  (np_size0 (data dat), np_size1 (data dat)) <> (snum dat, tnum dat) ->
  migrationKirchhoff vel nearfield dat = (Raise ShapeMismatch, dat)
  /\ migrationStolt interp2d vel dat = (Raise ShapeMismatch, dat)
  /\ migrationPhaseShift genfromtxt vspec vel_fn dat = (Raise ShapeMismatch, dat).
Proof.
  intros H. apply shape_mismatch_true in H.
  repeat split; apply check_shape_raises; exact H.
Qed.

(** A radargram announcing 500 samples per trace with an array of 1 row. *)
Definition dat_short : Radargram :=
  mkRadargram [[Some 0; Some 0]] 500 2 1 [1; 2] [1; 1] [0; 1].

Lemma shape_mismatch_raises_witness :
  let interp := fun (_ _ : list R) (_ : list (list xR)) (_ _ : R) => Some 0 in
  let gen := fun _ : string => @None velocity in
  migrationKirchhoff 1 false dat_short = (Raise ShapeMismatch, dat_short)
  /\ migrationStolt interp 1 dat_short = (Raise ShapeMismatch, dat_short)
  /\ migrationPhaseShift gen (VelConst 1) None dat_short
     = (Raise ShapeMismatch, dat_short).
Proof.
  intros interp gen.
  apply (shape_mismatch_raises interp gen dat_short 1 false (VelConst 1) None).
  simpl. discriminate.
Defined.

(** ** The frame of a migration *)

Lemma set_data_frame d dat : set_data d dat = set_data (data (set_data d dat)) dat.
Proof. reflexivity. Qed.

Lemma set_data_twice d1 d2 dat : set_data d2 (set_data d1 dat) = set_data d2 dat.
Proof. reflexivity. Qed.

Lemma migrationKirchhoff_frame vel nearfield dat dat' :
  migrationKirchhoff vel nearfield dat = (Return tt, dat') ->
  dat' = set_data (data dat') dat.
Proof.
  unfold migrationKirchhoff, bind, check_shape, self, lift, assign_data.
  destruct (shape_mismatch dat); [discriminate|].
  destruct (np_gradient_axis0 (data dat) (twtt_of dat)); [|discriminate].
  intros H; inversion H; reflexivity.
Qed.

Lemma migrationStolt_frame interp2d vel dat dat' :
  migrationStolt interp2d vel dat = (Return tt, dat') ->
  dat' = set_data (data dat') dat.
Proof.
  unfold migrationStolt, bind, check_shape, self, lift, assign_data.
  destruct (shape_mismatch dat); [discriminate|].
  destruct (stolt_migrated interp2d dat vel); [|discriminate].
  intros H; inversion H; reflexivity.
Qed.

Lemma migrationPhaseShift_frame genfromtxt vspec vel_fn dat dat' :
  migrationPhaseShift genfromtxt vspec vel_fn dat = (Return tt, dat') ->
  dat' = set_data (data dat') dat.
Proof.
  unfold migrationPhaseShift, bind, check_shape, self, lift, assign_data.
  destruct (shape_mismatch dat); [discriminate|].
  destruct (phaseshift_migrated genfromtxt dat vspec vel_fn); [|discriminate].
  intros H; inversion H; reflexivity.
Qed.

(** C9: a migration that returns hands back the radargram it was given
    with only [data] replaced: [snum], [tnum], [dt], [travel_time],
    [trace_int] and [dist] are those of the input. *)
Theorem migration_frame
    (interp2d : list R -> list R -> list (list xR) -> R -> R -> xR)
    (genfromtxt : string -> option velocity)
    (dat dat' : Radargram) (vel : R) (nearfield : bool)
    (vspec : velocity) (vel_fn : option string) :
  migrationKirchhoff vel nearfield dat = (Return tt, dat')
  \/ migrationStolt interp2d vel dat = (Return tt, dat')
  \/ migrationPhaseShift genfromtxt vspec vel_fn dat = (Return tt, dat') ->
  dat' = set_data (data dat') dat
  /\ snum dat' = snum dat /\ tnum dat' = tnum dat /\ dt dat' = dt dat
  /\ travel_time dat' = travel_time dat
  /\ trace_int dat' = trace_int dat /\ dist dat' = dist dat.
Proof.
  intros H.
  assert (E : dat' = set_data (data dat') dat).
  { destruct H as [H | [H | H]].
    - eapply migrationKirchhoff_frame; eauto.
    - eapply migrationStolt_frame; eauto.
    - eapply migrationPhaseShift_frame; eauto. }
  split; [exact E|]. rewrite E. simpl. repeat split.
Qed.

(** ** When the time derivative exists *)

Definition uniform_spacing (x : list R) : bool :=
  forallb (fun d => Reqb d (hd 0 (np_diff x))) (np_diff x).

Lemma np_diff_length x : length (np_diff x) = (length x - 1)%nat.
Proof.
  induction x as [|a [|b t] IH]; simpl in *; auto. rewrite IH. lia.
Qed.

Lemma gradient_spacing_returns x :
  (2 <= length x)%nat ->
  gradient_spacing x = Return (np_diff x, uniform_spacing x).
Proof.
  intros H. unfold gradient_spacing, uniform_spacing.
  pose proof (np_diff_length x) as L.
  destruct (np_diff x) as [|d0 t]; simpl in *; [lia | reflexivity].
Qed.

(** The array [gradD] of the Kirchhoff routine. *)
Definition gradD_of {V} `{Entry V} (f : list (list V)) (x : list R)
  : list (list V) :=
  map (fun i =>
         map (fun j => gradient_at (np_size0 f) (fun k => at2 f k j)
                                   (np_diff x) (uniform_spacing x) i)
             (seq 0 (np_size1 f)))
      (seq 0 (np_size0 f)).

Lemma np_gradient_axis0_returns {V} `{Entry V} (f : list (list V)) x :
  length x = np_size0 f -> (2 <= length x)%nat ->
  np_gradient_axis0 f x = Return (gradD_of f x).
Proof.
  intros L H2. unfold np_gradient_axis0.
  rewrite L, Nat.eqb_refl, gradient_spacing_returns by lia. reflexivity.
Qed.

Lemma twtt_of_length dat : length (twtt_of dat) = length (travel_time dat).
Proof. unfold twtt_of. apply length_map. Qed.

Lemma migrationKirchhoff_returns vel nearfield dat :
  shape_mismatch dat = false ->
  length (travel_time dat) = np_size0 (data dat) ->
  (2 <= length (travel_time dat))%nat ->
  migrationKirchhoff vel nearfield dat =
  (Return tt,
   set_data (kirchhoff_migdata dat vel nearfield
               (gradD_of (data dat) (twtt_of dat))) dat).
Proof.
  intros Hs L H2. unfold migrationKirchhoff.
  rewrite check_shape_passes by exact Hs.
  unfold bind, self, lift, assign_data.
  rewrite np_gradient_axis0_returns; rewrite ?twtt_of_length; auto.
Qed.

(** A radargram of two samples and one trace. *)
Definition dat_two : Radargram :=
  mkRadargram [[Some 1]; [Some 2]] 2 1 1 [1; 2] [1] [0].

Lemma migration_frame_witness :
  let dat' := snd (migrationKirchhoff 1 false dat_two) in
  dat' = set_data (data dat') dat_two
  /\ snum dat' = snum dat_two /\ tnum dat' = tnum dat_two
  /\ dt dat' = dt dat_two
  /\ travel_time dat' = travel_time dat_two
  /\ trace_int dat' = trace_int dat_two /\ dist dat' = dist dat_two.
Proof.
  intros dat'.
  apply (@migration_frame (fun _ _ _ _ _ => Some 0) (fun _ => None)
                          dat_two dat' 1 false (VelConst 1) None).
  left. subst dat'.
  rewrite (@migrationKirchhoff_returns 1 false dat_two);
    [reflexivity | reflexivity | reflexivity | simpl; lia].
Defined.

(** ** Which [FFX_last] the diffraction operator is given *)

(** The calls of [fourierFiniteDiff] made by the loops over [S] output
    times and [nw] frequencies, in order: the call in iteration
    [(itau, iw)] and the iteration whose [FFX] it receives as [FFX_last],
    namely the iteration that ran just before it. *)
Definition previous_iteration (nw : nat) (it : nat * nat) : nat * nat :=
  let '(itau, iw) := it in
  if (iw =? 0)%nat then ((itau - 1)%nat, (nw - 1)%nat) else (itau, (iw - 1)%nat).

Definition ffd_calls (S nw : nat) : list ((nat * nat) * option (nat * nat)) :=
  flat_map (fun itau =>
              map (fun iw => ((itau, iw), Some (previous_iteration nw (itau, iw))))
                  (seq 0 nw))
           (seq 1 (S - 1)).

Section GhostLog.
Variable dat : Radargram.
Variables kx ws : list R.
Variable stencil : lil.
Variable m : list (list R).

Lemma variable_step_ghost itau st iw :
  let st' := variable_step dat kx ws stencil (vmig_row (V2D m) itau) itau st iw in
  ps_last_from st' = Some (itau, iw)
  /\ ps_calls st' =
     if (0 <? itau)%nat then ps_calls st ++ [((itau, iw), ps_last_from st)]
     else ps_calls st.
Proof.
  unfold variable_step; simpl. destruct (0 <? itau)%nat; split; reflexivity.
Qed.

Fixpoint chain (itau : nat) (o : option (nat * nat)) (s n : nat)
  : list ((nat * nat) * option (nat * nat)) :=
  match n with
  | O => []
  | Datatypes.S n' => ((itau, s), o) :: chain itau (Some (itau, s)) (Datatypes.S s) n'
  end.

Lemma inner_loop_ghost itau n : forall s st,
  let st' := fold_left (variable_step dat kx ws stencil (vmig_row (V2D m) itau) itau)
                       (seq s n) st in
  ps_last_from st' = match n with
                     | O => ps_last_from st
                     | Datatypes.S n' => Some (itau, (s + n')%nat)
                     end
  /\ ps_calls st' =
     ps_calls st ++ (if (0 <? itau)%nat then chain itau (ps_last_from st) s n else []).
Proof.
  pose proof (variable_step_ghost itau) as G.
  cbv zeta in G |- *.
  set (step := variable_step dat kx ws stencil (vmig_row (V2D m) itau) itau) in *.
  induction n as [|n IH]; intros s st; cbn [seq fold_left chain].
  - split; [reflexivity|]. destruct (0 <? itau)%nat; rewrite app_nil_r; reflexivity.
  - destruct (G st s) as [Hf Hc].
    destruct (IH (Datatypes.S s) (step st s)) as [IHf IHc].
    split.
    + rewrite IHf. destruct n; [rewrite Hf; f_equal; f_equal; lia|].
      f_equal; f_equal; lia.
    + rewrite IHc, Hc, Hf. destruct (0 <? itau)%nat.
      * rewrite <- app_assoc. reflexivity.
      * rewrite app_nil_r. reflexivity.
Qed.
End GhostLog.

Fixpoint outer_chain (nw : nat) (o : option (nat * nat)) (s n : nat)
  : list ((nat * nat) * option (nat * nat)) :=
  match n with
  | O => []
  | Datatypes.S n' =>
      (if (0 <? s)%nat then chain s o 0 nw else [])
      ++ outer_chain nw (match nw with
                         | O => o
                         | Datatypes.S nw' => Some (s, nw')
                         end) (Datatypes.S s) n'
  end.

Lemma outer_loop_ghost dat kx ws stencil m n : forall s st,
  let st' :=
    fold_left
      (fun st itau =>
         fold_left (variable_step dat kx ws stencil (vmig_row (V2D m) itau) itau)
                   (seq 0 (length ws)) st)
      (seq s n) st in
  ps_calls st' = ps_calls st ++ outer_chain (length ws) (ps_last_from st) s n.
Proof.
  induction n as [|n IH]; intros s st; cbn [seq fold_left outer_chain].
  - rewrite app_nil_r. reflexivity.
  - destruct (inner_loop_ghost dat kx ws stencil m s (length ws) 0 st) as [Hf Hc].
    cbv zeta in IH. rewrite IH, Hc, Hf, <- app_assoc. reflexivity.
Qed.

Lemma chain_succ itau n : forall s,
  chain itau (Some (itau, s)) (Datatypes.S s) n =
  map (fun iw => ((itau, iw), Some (itau, (iw - 1)%nat))) (seq (Datatypes.S s) n).
Proof.
  induction n as [|n IH]; intros s; cbn [chain seq map]; [reflexivity|].
  rewrite IH. repeat f_equal. lia.
Qed.

Lemma chain_row nw itau :
  (0 < itau)%nat ->
  chain itau (match nw with
              | O => None
              | Datatypes.S nw' => Some ((itau - 1)%nat, nw')
              end) 0 nw =
  map (fun iw => ((itau, iw), Some (previous_iteration nw (itau, iw)))) (seq 0 nw).
Proof.
  intros Hi. destruct nw as [|nw]; [reflexivity|].
  cbn [chain seq map]. rewrite chain_succ.
  f_equal.
  - unfold previous_iteration; simpl. repeat f_equal; lia.
  - apply map_ext_in. intros iw Hin. apply in_seq in Hin.
    unfold previous_iteration.
    destruct (Nat.eqb_spec iw 0); [lia | reflexivity].
Qed.

Lemma outer_chain_rows nw n : forall s,
  (0 < s)%nat ->
  outer_chain nw (match nw with
                  | O => None
                  | Datatypes.S nw' => Some ((s - 1)%nat, nw')
                  end) s n =
  flat_map (fun itau =>
              map (fun iw => ((itau, iw), Some (previous_iteration nw (itau, iw))))
                  (seq 0 nw))
           (seq s n).
Proof.
  induction n as [|n IH]; intros s Hs; cbn [outer_chain seq flat_map]; [reflexivity|].
  destruct (Nat.ltb_spec 0 s); [|lia].
  rewrite chain_row by lia. f_equal.
  specialize (IH (Datatypes.S s) ltac:(lia)).
  replace (Datatypes.S s - 1)%nat with s in IH by lia.
  destruct nw; exact IH.
Qed.

(** C4: in the gridded branch the loops of [phaseShift] hand to
    [fourierFiniteDiff], in iteration [(itau, iw)], the [FFX] of the
    iteration that ran just before: the previous frequency at the same
    depth (or, for [iw = 0], the last frequency of the previous depth), and
    not the [FFX] of the same frequency at the previous depth.  With two
    depths and two frequencies the call in [(1, 1)] receives the [FFX] of
    [(1, 0)], not that of [(0, 1)]. *)
Theorem FFX_last_is_previous_iteration
    (dat : Radargram) (m : list (list R)) (kx ws : list R) (stencil : lil)
    (FK TK : list (list xC)) :
  ps_calls (variable_loops dat (V2D m) kx ws stencil (mkPS FK TK [] None []))
  = ffd_calls (snum dat) (length ws)
  /\ ffd_calls 2 2 = [((1, 0), Some (0, 1)); ((1, 1), Some (1, 0))]%nat.
Proof.
  split; [|reflexivity].
  unfold variable_loops, ffd_calls.
  pose proof (outer_loop_ghost dat kx ws stencil m (snum dat) 0
                               (mkPS FK TK [] None [])) as H.
  cbv zeta in H. rewrite H. cbn [ps_calls ps_last_from app].
  destruct (snum dat) as [|n0]; [reflexivity|].
  cbn [outer_chain]. replace (0 <? 0)%nat with false by reflexivity.
  cbn [app]. replace (Datatypes.S n0 - 1)%nat with n0 by lia.
  pose proof (@outer_chain_rows (length ws) n0 1 ltac:(lia)) as E.
  replace (1 - 1)%nat with 0%nat in E by lia.
  destruct (length ws); exact E.
Qed.

(** ** The evanescent cut of the layered and gridded branch *)

Lemma Rleb_false a b : b < a -> Rleb a b = false.
Proof. intros H. unfold Rleb. destruct (Rle_dec a b); [lra | reflexivity]. Qed.




Lemma Reqb_refl a : Reqb a a = true.
Proof. unfold Reqb. destruct (Req_EM_T a a); [reflexivity | congruence]. Qed.

Lemma Reqb_false a b : a <> b -> Reqb a b = false.
Proof. intros H. unfold Reqb. destruct (Req_EM_T a b); [congruence | reflexivity]. Qed.

(** A phase shift does not annihilate an entry. *)
Lemma cshift_keeps_nonzero p z : Cmul (Cconj (cis p)) z = C0 -> z = C0.
Proof.
  destruct z as [a b]. unfold Cmul, Cconj, cis, C0; simpl.
  intros H; injection H as H1 H2.
  pose proof (sin2_cos2 p) as T. unfold Rsqr in T.
  assert (Ha : a = cos p * (cos p * a - - sin p * b)
                   - sin p * (cos p * b + - sin p * a)).
  { transitivity (a * (sin p * sin p + cos p * cos p)); [rewrite T|]; ring. }
  assert (Hb : b = sin p * (cos p * a - - sin p * b)
                   + cos p * (cos p * b + - sin p * a)).
  { transitivity (b * (sin p * sin p + cos p * cos p)); [rewrite T|]; ring. }
  rewrite H1, H2 in Ha, Hb.
  rewrite Ha, Hb. f_equal; ring.
Qed.

(** C3: the cut of the layered branch at the last output time of a
    two-sample radargram.  The wavenumber [kx = 0] has [coss = 1], which is
    not above [(tau / tau_max)^2 = 1], yet the entry is kept (phase-shifted),
    not set to zero: the code compares [coss] with
    [(tau / dat.travel_time[-1] / 1e6)^2], where [tau] is in seconds and
    [dat.travel_time[-1]] in microseconds. *)
Theorem evanescent_cut_units (v : R) (z0 z1 : C) :
  let dat := dat_two in
  let kx := map (Rmult (2 * PI))
                (np_fftfreq (tnum dat) (np_mean (trace_int dat))) in
  let ws := map (Rmult (2 * PI)) (np_fftfreq (next_pow2 (snum dat)) (dt dat)) in
  let st := mkPS [[Some z0]; [Some z1]] [[Some C0]; [Some C0]] [] None [] in
  let tau := nth 1 (travel_time dat) 0 / 1e6 in
  let tau_max := last (travel_time dat) 0 / 1e6 in
  let w := omega dat ws 0 in
  let coss := 1 - (0.5 * v * nth 0 kx 0 / w) ^ 2 in
  coss <= (tau / tau_max) ^ 2
  /\ ps_FK (variable_step dat kx ws [] (RowScalar v) 1 st 0)
     = [[Some (Cmul (Cconj (cis (- w * dt dat * Re_csqrt coss))) z0)]; [Some z1]].
Proof.
  intros dat kx ws st tau tau_max w coss.
  assert (K : kx = [2 * PI * (0 * (1 / (1 * ((1 + 0) / 1))))]) by reflexivity.
  assert (Hc : coss = 1).
  { unfold coss. rewrite K. simpl. unfold Rdiv. ring. }
  split.
  - rewrite Hc. unfold tau, tau_max. simpl. lra.
  - unfold variable_step. fold w.
    assert (K1 : kx = [nth 0 kx 0]) by reflexivity.
    rewrite K1. cbn [ps_FK st map map2 nth upd]. fold coss.
    rewrite Rleb_false; [reflexivity|].
    rewrite Hc. simpl. lra.
Qed.

(** ** Velocity tables that fit neither form *)



(** ** No path raises [InvalidVelocitySpec] on a well-sized radargram *)



























(** ** Two-way times beyond the velocity model *)








(** * Further properties of the routines *)

(** ** The stencil in closed form *)

Definition entry (A : lil) (i j : nat) : Z := nth j (nth i A []) 0%Z.

Definition square (N : nat) (A : lil) : Prop :=
  length A = N /\ Forall (fun row => length row = N) A.

Lemma nth_upd_overflow {T} (i : nat) (x : T) l d :
  (length l <= i)%nat -> nth i (upd i x l) d = nth i l d.
Proof.
  intros H. rewrite !nth_overflow; auto. rewrite upd_length; exact H.
Qed.

Lemma Forall_upd {T} (P : T -> Prop) i x l :
  Forall P l -> ((i < length l)%nat -> P x) -> Forall P (upd i x l).
Proof.
  intros H; revert i. induction H as [|h t Hh Ht IH]; intros [|i] Hx; simpl.
  - constructor.
  - constructor.
  - constructor; [apply Hx; simpl; lia | exact Ht].
  - constructor; [exact Hh | apply IH; intros; apply Hx; simpl; lia].
Qed.

Lemma square_row N A i : square N A -> (i < N)%nat -> length (nth i A []) = N.
Proof.
  intros [L F] Hi. rewrite Forall_forall in F. apply F. apply nth_In. lia.
Qed.

Lemma square_setitem N A i j v : square N A -> square N (setitem i j v A).
Proof.
  intros S. pose proof S as [L F]. unfold setitem. split.
  - rewrite upd_length; exact L.
  - apply Forall_upd; [exact F|]. intros Hi.
    rewrite upd_length. apply (@square_row N A i S). lia.
Qed.

Lemma entry_setitem N A i j v i' j' :
  square N A ->
  entry (setitem i j v A) i' j' =
  if ((i' =? i) && (j' =? j) && (i <? N) && (j <? N))%nat then v
  else entry A i' j'.
Proof.
  intros S. pose proof S as [L F]. unfold entry, setitem.
  destruct (Nat.eqb_spec i' i) as [->|Hi]; cbn [andb].
  2:{ rewrite nth_upd_other by auto. reflexivity. }
  destruct (Nat.ltb_spec i N) as [HiN|HiN].
  2:{ rewrite andb_false_r. cbn [andb]. rewrite nth_upd_overflow by lia. reflexivity. }
  rewrite nth_upd_same by lia.
  destruct (Nat.eqb_spec j' j) as [->|Hj]; cbn [andb].
  2:{ rewrite nth_upd_other by auto. reflexivity. }
  pose proof (@square_row N A i S HiN) as LR.
  destruct (Nat.ltb_spec j N) as [HjN|HjN].
  - rewrite nth_upd_same by lia. reflexivity.
  - rewrite nth_upd_overflow by lia. reflexivity.
Qed.

(** A run of assignments [A[r i, c i] = v] for [i] in a range. *)
Definition assign_run (r c : nat -> nat) (v : Z) (s n : nat) (A : lil) : lil :=
  fold_left (fun A' i => setitem (r i) (c i) v A') (seq s n) A.

Lemma square_assign_run N r c v n : forall s A,
  square N A -> square N (assign_run r c v s n A).
Proof.
  unfold assign_run. induction n as [|n IH]; intros s A S; cbn [seq fold_left].
  - exact S.
  - apply IH. apply square_setitem. exact S.
Qed.

Lemma entry_assign_run_miss N r c v n i' j' : forall s A,
  square N A ->
  (forall i, (s <= i < s + n)%nat -> ~ (r i = i' /\ c i = j')) ->
  entry (assign_run r c v s n A) i' j' = entry A i' j'.
Proof.
  unfold assign_run. induction n as [|n IH]; intros s A S M; cbn [seq fold_left].
  - reflexivity.
  - rewrite IH.
    + rewrite (@entry_setitem N A (r s) (c s) v i' j' S).
      destruct (Nat.eqb_spec i' (r s)); destruct (Nat.eqb_spec j' (c s));
        cbn [andb]; try reflexivity.
      exfalso. apply (M s); [lia | split; congruence].
    + apply square_setitem; exact S.
    + intros i Hi. apply M. lia.
Qed.

Lemma entry_assign_run_hit N r c v n i' j' : forall s A,
  square N A ->
  (i' < N)%nat -> (j' < N)%nat ->
  (forall a b, (s <= a < s + n)%nat -> (s <= b < s + n)%nat ->
               r a = r b -> c a = c b -> a = b) ->
  (exists i, (s <= i < s + n)%nat /\ r i = i' /\ c i = j') ->
  entry (assign_run r c v s n A) i' j' = v.
Proof.
  induction n as [|n IH]; intros s A S Hi Hj Inj (i & Hr & Er & Ec).
  - lia.
  - unfold assign_run. cbn [seq fold_left].
    fold (assign_run r c v (Datatypes.S s) n (setitem (r s) (c s) v A)).
    pose proof (@square_setitem N A (r s) (c s) v S) as S'.
    destruct (Nat.eq_dec i s) as [->|Hne].
    + rewrite (@entry_assign_run_miss N r c v n i' j' (Datatypes.S s) _ S').
      * rewrite (@entry_setitem N A (r s) (c s) v i' j' S).
        rewrite Er, Ec, !Nat.eqb_refl.
        destruct (Nat.ltb_spec i' N); [|lia]. destruct (Nat.ltb_spec j' N); [|lia].
        reflexivity.
      * intros i0 Hi0 [H1 H2].
        assert (i0 = s) by (apply Inj; try lia; congruence). lia.
    + apply IH; auto.
      * intros a b Ha Hb. apply Inj; lia.
      * exists i. split; [lia | auto].
Qed.

Lemma fold_left_map_pairs {T} (F : T -> nat * Z -> T) (G : T -> nat -> T) c l :
  (forall a i, F a (i, c) = G a i) ->
  forall a, fold_left F (map (fun i => (i, c)) l) a = fold_left G l a.
Proof.
  intros E. induction l as [|i l IH]; intros a; simpl; [reflexivity|].
  rewrite E. apply IH.
Qed.

Lemma combine_seq_repeat (c : Z) n : forall s m,
  (n <= m)%nat ->
  combine (seq s n) (firstn n (repeat c m)) = map (fun i => (i, c)) (seq s n).
Proof.
  induction n as [|n IH]; intros s m H; [reflexivity|].
  destruct m as [|m]; [lia|]. simpl. f_equal. apply IH. lia.
Qed.

Lemma scaled_ones_returns c n :
  (0 <= n)%Z -> scaled_ones c n = Return (repeat (c * 1)%Z (Z.to_nat n)).
Proof.
  intros H. unfold scaled_ones. destruct (Z.ltb_spec n 0); [lia | reflexivity].
Qed.

(** [setdiag] of a constant diagonal at a non-negative offset. *)
Lemma setdiag_upper c m kp A :
  (kp = 0 \/ kp < length A)%nat ->
  (length A - kp <= m)%nat ->
  setdiag (repeat c m) (Z.of_nat kp) A =
  Return (assign_run (fun i => i) (fun i => (i + kp)%nat) c 0 (length A - kp) A).
Proof.
  intros Hk Hm. unfold setdiag, assign_run. rewrite (repeat_length c m).
  destruct (Z.ltb_spec 0 (Z.of_nat kp)); destruct (Z.leb_spec (Z.of_nat (length A)) (Z.of_nat kp));
    destruct (Z.ltb_spec (Z.of_nat kp) 0); cbn [andb orb]; try lia.
  all: replace (Z.to_nat (Z.min (Z.min (Z.of_nat (length A))
                                       (Z.of_nat (length A) - Z.of_nat kp))
                                (Z.of_nat m)))
         with (length A - kp)%nat by lia.
  all: rewrite combine_seq_repeat by lia.
  all: f_equal; apply fold_left_map_pairs; intros a i; rewrite Nat2Z.id; reflexivity.
Qed.

(** [setdiag] of a constant diagonal at a negative offset. *)
Lemma setdiag_lower c m kn A :
  (0 < kn < length A)%nat ->
  (length A - kn <= m)%nat ->
  setdiag (repeat c m) (- Z.of_nat kn) A =
  Return (assign_run (fun i => (i + kn)%nat) (fun i => i) c 0 (length A - kn) A).
Proof.
  intros Hk Hm. unfold setdiag, assign_run. rewrite (repeat_length c m).
  destruct (Z.ltb_spec 0 (- Z.of_nat kn));
    destruct (Z.leb_spec (Z.of_nat (length A)) (- Z.of_nat kn));
    destruct (Z.ltb_spec (- Z.of_nat kn) 0);
    destruct (Z.leb_spec (Z.of_nat (length A)) (- - Z.of_nat kn));
    cbn [andb orb]; try lia.
  all: replace (Z.to_nat (Z.min (Z.min (Z.of_nat (length A) + - Z.of_nat kn)
                                       (Z.of_nat (length A)))
                                (Z.of_nat m)))
         with (length A - kn)%nat by lia.
  all: rewrite combine_seq_repeat by lia.
  all: f_equal; apply fold_left_map_pairs; intros a i.
  all: rewrite Z.opp_involutive, Nat2Z.id; reflexivity.
Qed.

Lemma square_lil_matrix N : square N (lil_matrix N).
Proof.
  unfold square, lil_matrix. split; [apply repeat_length|].
  apply Forall_forall. intros row H. apply repeat_spec in H. subst.
  apply repeat_length.
Qed.

Lemma entry_lil_matrix N i j : entry (lil_matrix N) i j = 0%Z.
Proof.
  unfold entry, lil_matrix.
  destruct (Nat.ltb_spec i N).
  - rewrite nth_repeat_lt by lia. apply nth_repeat.
  - rewrite (@nth_overflow _ (repeat (repeat 0%Z N) N) i [])
      by (rewrite (repeat_length (repeat 0%Z N) N); lia).
    destruct j; reflexivity.
Qed.

Lemma nth_map_seq {T} (g : nat -> T) N i d :
  (i < N)%nat -> nth i (map g (seq 0 N)) d = g i.
Proof.
  intros H.
  rewrite (@nth_indep T (map g (seq 0 N)) i d (g 0%nat))
    by (rewrite length_map, length_seq; exact H).
  rewrite (map_nth g (seq 0 N) 0%nat i), seq_nth by exact H. reflexivity.
Qed.

Lemma lil_ext N A (f : nat -> nat -> Z) :
  square N A ->
  (forall i j, (i < N)%nat -> (j < N)%nat -> entry A i j = f i j) ->
  A = map (fun i => map (f i) (seq 0 N)) (seq 0 N).
Proof.
  intros Sq E. pose proof Sq as [L F].
  apply nth_ext with (d := []) (d' := []).
  - rewrite length_map, length_seq. exact L.
  - intros i Hi. rewrite L in Hi. rewrite nth_map_seq by exact Hi.
    apply nth_ext with (d := 0%Z) (d' := 0%Z).
    + rewrite length_map, length_seq. apply (@square_row N A i Sq Hi).
    + intros j Hj. rewrite (@square_row N A i Sq Hi) in Hj.
      rewrite nth_map_seq by exact Hj. apply E; assumption.
Qed.

(** The entries of the matrix that [Sp_Matr] builds when the second
    off-diagonals are left at offset [nx = 0]: the main diagonal holds [k4],
    whatever [diag] and [k3] are. *)
Definition stencil_entry (N : nat) (k1 k2 k4 : Z) (i j : nat) : Z :=
  if (i =? N - 1)%nat then 1%Z
  else if (i =? 0)%nat then (if (j =? 0)%nat then 1%Z else 0%Z)
  else if (j =? i)%nat then k4
  else if (j + 1 =? i)%nat then k2
  else if (j =? i + 1)%nat then k1
  else 0%Z.

Definition stencil_rows (N : nat) (k1 k2 k4 : Z) : lil :=
  map (fun i => map (stencil_entry N k1 k2 k4 i) (seq 0 N)) (seq 0 N).

Ltac nat_cases :=
  repeat match goal with
         | |- context [(?a =? ?b)%nat] => destruct (Nat.eqb_spec a b)
         | |- context [(?a <? ?b)%nat] => destruct (Nat.ltb_spec a b)
         | |- context [(?a <=? ?b)%nat] => destruct (Nat.leb_spec a b)
         end; cbn [andb orb negb].

Lemma entry_diag_upper N A c kp n i' j' :
  square N A -> (i' < N)%nat -> (j' < N)%nat ->
  entry (assign_run (fun i => i) (fun i => (i + kp)%nat) c 0 n A) i' j' =
  if ((j' =? i' + kp) && (i' <? n))%nat then c else entry A i' j'.
Proof.
  intros Sq Hi Hj. nat_cases.
  all: try (apply (@entry_assign_run_miss N);
            [exact Sq | intros i0 Hr [E1 E2]; cbv beta in *; lia]).
  apply (@entry_assign_run_hit N); auto;
    try (intros a b ? ? E1 E2; cbv beta in *; lia).
  exists i'. repeat split; auto; lia.
Qed.

Lemma entry_diag_lower N A c kn n i' j' :
  square N A -> (i' < N)%nat -> (j' < N)%nat ->
  entry (assign_run (fun i => (i + kn)%nat) (fun i => i) c 0 n A) i' j' =
  if ((i' =? j' + kn) && (j' <? n))%nat then c else entry A i' j'.
Proof.
  intros Sq Hi Hj. nat_cases.
  all: try (apply (@entry_assign_run_miss N);
            [exact Sq | intros i0 Hr [E1 E2]; cbv beta in *; lia]).
  apply (@entry_assign_run_hit N); auto;
    try (intros a b ? ? E1 E2; cbv beta in *; lia).
  exists j'. repeat split; auto; lia.
Qed.

Lemma entry_row_run N A c r s n i' j' :
  square N A -> (i' < N)%nat -> (j' < N)%nat ->
  entry (assign_run (fun _ => r) (fun j => j) c s n A) i' j' =
  if ((i' =? r) && (s <=? j') && (j' <? s + n))%nat then c else entry A i' j'.
Proof.
  intros Sq Hi Hj. nat_cases.
  all: try (apply (@entry_assign_run_miss N);
            [exact Sq | intros i0 Hr [E1 E2]; cbv beta in *; lia]).
  apply (@entry_assign_run_hit N); auto;
    try (intros a b ? ? E1 E2; cbv beta in *; lia).
  exists j'. repeat split; auto; lia.
Qed.

Lemma lil_matrix_length N : length (lil_matrix N) = N.
Proof. apply repeat_length. Qed.

Lemma assign_run_length r c v n : forall s A,
  length (assign_run r c v s n A) = length A.
Proof.
  unfold assign_run. induction n as [|n IH]; intros s A; cbn [seq fold_left].
  - reflexivity.
  - rewrite IH. unfold setitem. apply upd_length.
Qed.

(** The matrix [Sp_Matr] returns when called without second off-diagonals,
    as a sequence of runs of assignments. *)
Lemma Sp_Matr_runs N d k1 k2 k3 k4 :
  (2 <= N)%nat ->
  Sp_Matr N d k1 k2 k3 k4 0 =
  Return
    (assign_run (fun _ => (N - 1)%nat) (fun j => j) 1%Z 0 (N - 1)
      (setitem (N - 1) (N - 1) 1%Z
        (assign_run (fun _ => 0%nat) (fun j => j) 0%Z 1 (N - 1)
          (setitem 0 0 1%Z
            (assign_run (fun i => i) (fun i => (i + 0)%nat) (k4 * 1)%Z 0 N
              (assign_run (fun i => i) (fun i => (i + 0)%nat) (k3 * 1)%Z 0 N
                (assign_run (fun i => (i + 1)%nat) (fun i => i) (k2 * 1)%Z 0 (N - 1)
                  (assign_run (fun i => i) (fun i => (i + 1)%nat) (k1 * 1)%Z 0 (N - 1)
                    (assign_run (fun i => i) (fun i => (i + 0)%nat) (d * 1)%Z 0 N
                      (lil_matrix N)))))))))).
Proof.
  intros HN. unfold Sp_Matr, setrow_range.
  change (Z.of_nat 0) with 0%Z. change (- 0)%Z with 0%Z.
  rewrite !scaled_ones_returns by lia. cbn [rbind].
  replace (Z.to_nat (Z.of_nat N - 0)) with N by lia.
  replace (Z.to_nat (Z.of_nat N - 1)) with (N - 1)%nat by lia.
  rewrite Nat2Z.id.
  set (A0 := lil_matrix N).
  assert (L0 : length A0 = N) by apply lil_matrix_length.
  pose proof (@setdiag_upper (d * 1)%Z N 0 A0) as E1.
  change (Z.of_nat 0) with 0%Z in E1.
  rewrite L0 in E1. replace (N - 0)%nat with N in E1 by lia.
  rewrite E1 by lia. cbn [rbind]. clear E1.
  set (A1 := assign_run _ _ (d * 1)%Z 0 N A0).
  assert (L1 : length A1 = N) by (unfold A1; rewrite assign_run_length; exact L0).
  pose proof (@setdiag_upper (k1 * 1)%Z (N - 1) 1 A1) as E2.
  change (Z.of_nat 1) with 1%Z in E2.
  rewrite L1 in E2. rewrite E2 by lia. cbn [rbind]. clear E2.
  set (A2 := assign_run _ _ (k1 * 1)%Z 0 (N - 1) A1).
  assert (L2 : length A2 = N) by (unfold A2; rewrite assign_run_length; exact L1).
  pose proof (@setdiag_lower (k2 * 1)%Z (N - 1) 1 A2) as E3.
  change (- Z.of_nat 1)%Z with (-1)%Z in E3.
  rewrite L2 in E3. rewrite E3 by lia. cbn [rbind]. clear E3.
  set (A3 := assign_run _ _ (k2 * 1)%Z 0 (N - 1) A2).
  assert (L3 : length A3 = N) by (unfold A3; rewrite assign_run_length; exact L2).
  pose proof (@setdiag_upper (k3 * 1)%Z N 0 A3) as E4.
  change (Z.of_nat 0) with 0%Z in E4.
  rewrite L3 in E4. replace (N - 0)%nat with N in E4 by lia.
  rewrite E4 by lia. cbn [rbind]. clear E4.
  set (A4 := assign_run _ _ (k3 * 1)%Z 0 N A3).
  assert (L4 : length A4 = N) by (unfold A4; rewrite assign_run_length; exact L3).
  pose proof (@setdiag_upper (k4 * 1)%Z N 0 A4) as E5.
  change (Z.of_nat 0) with 0%Z in E5.
  rewrite L4 in E5. replace (N - 0)%nat with N in E5 by lia.
  rewrite E5 by lia. cbn [rbind]. clear E5.
  replace (N - 1 - 0)%nat with (N - 1)%nat by lia.
  reflexivity.
Qed.

Create HintDb sq.
#[local] Hint Resolve square_lil_matrix square_assign_run square_setitem : sq.

(** Decide the comparisons of naturals that the hypotheses settle. *)
Ltac nat_decide :=
  repeat match goal with
         | |- context [(?a =? ?b)%nat] =>
             first [ replace (a =? b)%nat with true
                       by (symmetry; apply Nat.eqb_eq; lia)
                   | replace (a =? b)%nat with false
                       by (symmetry; apply Nat.eqb_neq; lia) ]
         | |- context [(?a <? ?b)%nat] =>
             first [ replace (a <? b)%nat with true
                       by (symmetry; apply Nat.ltb_lt; lia)
                   | replace (a <? b)%nat with false
                       by (symmetry; apply Nat.ltb_ge; lia) ]
         | |- context [(?a <=? ?b)%nat] =>
             first [ replace (a <=? b)%nat with true
                       by (symmetry; apply Nat.leb_le; lia)
                   | replace (a <=? b)%nat with false
                       by (symmetry; apply Nat.leb_gt; lia) ]
         end; cbn [andb orb negb].

Lemma Sp_Matr_entries N d k1 k2 k3 k4 :
  (2 <= N)%nat ->
  Sp_Matr N d k1 k2 k3 k4 0 = Return (stencil_rows N k1 k2 k4).
Proof.
  intros HN. rewrite Sp_Matr_runs by exact HN. f_equal.
  apply lil_ext; [auto 12 with sq|].
  intros i j Hi Hj.
  rewrite (@entry_row_run N) by auto 12 with sq.
  rewrite (@entry_setitem N) by auto 12 with sq.
  rewrite (@entry_row_run N) by auto 12 with sq.
  rewrite (@entry_setitem N) by auto 12 with sq.
  rewrite !(@entry_diag_upper N) by auto 12 with sq.
  rewrite (@entry_diag_lower N) by auto 12 with sq.
  rewrite !(@entry_diag_upper N) by auto 12 with sq.
  rewrite entry_lil_matrix.
  unfold stencil_entry.
  assert (Ci : i = (N - 1)%nat \/ i = 0%nat \/ (0 < i < N - 1)%nat) by lia.
  assert (Cj : j = i \/ (j + 1)%nat = i \/ j = (i + 1)%nat
               \/ (j <> i /\ (j + 1)%nat <> i /\ j <> (i + 1)%nat)) by lia.
  destruct Ci as [Ci | [Ci | Ci]];
    destruct Cj as [Cj | [Cj | [Cj | Cj]]];
    nat_decide; rewrite ?Z.mul_1_r; reflexivity.
Qed.

Definition zsum (l : list Z) : Z := fold_right Z.add 0%Z l.

Lemma row_dot_ones row : forall n,
  (length row <= n)%nat ->
  row_dot 0%Z Z.add Z.mul row (repeat 1%Z n) = zsum row.
Proof.
  unfold row_dot.
  assert (G : forall n acc, (length row <= n)%nat ->
            fold_left (fun acc (av : Z * Z) =>
                         let '(a, x) := av in
                         if (a =? 0)%Z then acc else (acc + a * x)%Z)
                      (combine row (repeat 1%Z n)) acc = (acc + zsum row)%Z).
  { induction row as [|a row IH]; intros n acc H; simpl in *.
    - lia.
    - destruct n as [|n]; [lia|]. simpl. rewrite IH by lia.
      destruct (Z.eqb_spec a 0); lia. }
  intros n H. rewrite G by exact H. lia.
Qed.

Lemma zsum_indicator a n : forall s,
  zsum (map (fun j => if (j =? a)%nat then 1%Z else 0%Z) (seq s n)) =
  if ((s <=? a) && (a <? s + n))%nat then 1%Z else 0%Z.
Proof.
  induction n as [|n IH]; intros s; cbn [seq map zsum fold_right].
  - destruct (Nat.leb_spec s a); destruct (Nat.ltb_spec a (s + 0)); cbn [andb]; lia.
  - fold (zsum (map (fun j => if (j =? a)%nat then 1%Z else 0%Z) (seq (Datatypes.S s) n))).
    rewrite IH.
    destruct (Nat.eqb_spec s a); destruct (Nat.leb_spec s a);
      destruct (Nat.leb_spec (Datatypes.S s) a);
      destruct (Nat.ltb_spec a (Datatypes.S s + n));
      destruct (Nat.ltb_spec a (s + Datatypes.S n)); cbn [andb]; lia.
Qed.

Lemma zsum_const c n : forall s,
  zsum (map (fun _ : nat => c) (seq s n)) = (Z.of_nat n * c)%Z.
Proof.
  induction n as [|n IH]; intros s; cbn [seq map zsum fold_right]; [lia|].
  fold (zsum (map (fun _ : nat => c) (seq (Datatypes.S s) n))). rewrite IH. lia.
Qed.

Lemma zsum_add (f g : nat -> Z) l :
  zsum (map (fun j => (f j + g j)%Z) l) = (zsum (map f l) + zsum (map g l))%Z.
Proof. induction l as [|x l IH]; simpl; [reflexivity|]. unfold zsum in *. lia. Qed.

(** The row sums of the stencil. *)
Lemma stencil_row_sum N k1 k2 k4 i :
  (2 <= N)%nat -> (i < N)%nat ->
  zsum (map (stencil_entry N k1 k2 k4 i) (seq 0 N)) =
  if (i =? N - 1)%nat then Z.of_nat N
  else if (i =? 0)%nat then 1%Z
  else (k4 + k2 + k1)%Z.
Proof.
  intros HN Hi.
  destruct (Nat.eqb_spec i (N - 1)) as [E1|E1].
  { rewrite (map_ext _ (fun _ => 1%Z)).
    - rewrite zsum_const. lia.
    - intros j. unfold stencil_entry. rewrite E1, Nat.eqb_refl. reflexivity. }
  destruct (Nat.eqb_spec i 0) as [E0|E0].
  { rewrite (map_ext _ (fun j => if (j =? 0)%nat then 1%Z else 0%Z)).
    - rewrite zsum_indicator. destruct N; [lia | reflexivity].
    - intros j. unfold stencil_entry.
      destruct (Nat.eqb_spec i (N - 1)); [lia|]. rewrite E0. reflexivity. }
  rewrite (map_ext_in _ (fun j => ((if (j =? i)%nat then k4 else 0)
                                   + ((if (j =? i - 1)%nat then k2 else 0)
                                      + (if (j =? i + 1)%nat then k1 else 0)))%Z)).
  - rewrite !zsum_add.
    assert (Ind : forall a k, zsum (map (fun j => if (j =? a)%nat then k else 0%Z) (seq 0 N))
                              = ((if ((0 <=? a) && (a <? 0 + N))%nat then 1 else 0) * k)%Z).
    { intros a k. rewrite <- zsum_indicator.
      induction (seq 0 N) as [|x l IH]; simpl; [reflexivity|].
      unfold zsum in *. rewrite IH. destruct (x =? a)%nat; lia. }
    rewrite !Ind.
    destruct (Nat.ltb_spec i (0 + N)); [|lia].
    destruct (Nat.ltb_spec (i - 1) (0 + N)); [|lia].
    destruct (Nat.ltb_spec (i + 1) (0 + N)); [|lia].
    cbn [Nat.leb andb]. lia.
  - intros j Hj. apply in_seq in Hj. unfold stencil_entry.
    destruct (Nat.eqb_spec i (N - 1)); [lia|].
    destruct (Nat.eqb_spec i 0); [lia|].
    destruct (Nat.eqb_spec j i); destruct (Nat.eqb_spec (j + 1) i);
      destruct (Nat.eqb_spec j (i + 1)); destruct (Nat.eqb_spec j (i - 1)); lia.
Qed.

Lemma stencil_dot_ones N k1 k2 k4 :
  (2 <= N)%nat ->
  lil_dotZ (stencil_rows N k1 k2 k4) (repeat 1%Z N) =
  1%Z :: repeat (k4 + k2 + k1)%Z (N - 2) ++ [Z.of_nat N].
Proof.
  intros HN. unfold lil_dotZ, lil_dot, stencil_rows. rewrite map_map.
  apply nth_ext with (d := 0%Z) (d' := 0%Z).
  - rewrite length_map, length_seq. cbn [length].
    rewrite length_app, (repeat_length (k4 + k2 + k1)%Z (N - 2)). simpl. lia.
  - intros i Hi. rewrite length_map, length_seq in Hi.
    rewrite nth_map_seq by exact Hi.
    rewrite row_dot_ones by (rewrite length_map, length_seq; lia).
    rewrite stencil_row_sum by assumption.
    destruct (Nat.eqb_spec i (N - 1)) as [E1|E1].
    + destruct i as [|i]; [lia|]. cbn [nth].
      rewrite app_nth2 by (rewrite (repeat_length (k4 + k2 + k1)%Z (N - 2)); lia).
      rewrite (repeat_length (k4 + k2 + k1)%Z (N - 2)).
      replace (i - (N - 2))%nat with 0%nat by lia. reflexivity.
    + destruct (Nat.eqb_spec i 0) as [E0|E0]; [subst; reflexivity|].
      destruct i as [|i]; [lia|]. cbn [nth].
      rewrite app_nth1 by (rewrite (repeat_length (k4 + k2 + k1)%Z (N - 2)); lia).
      symmetry. apply nth_repeat_lt. lia.
Qed.

(** X1: called without second off-diagonals ([nx = 0], the default),
    [Sp_Matr] returns for every [N >= 2] the [N x N] matrix whose first row
    is [[1, 0, ..., 0]], whose last row is all ones and whose interior rows
    hold [k2], [k4], [k1] around the diagonal.  The values [diag] and [k3]
    leave no trace: the two last [setdiag] calls write the main diagonal
    again. *)
Theorem Sp_Matr_without_offset (N : nat) (d k1 k2 k3 k4 d' k3' : Z) :
  (2 <= N)%nat ->
  Sp_Matr N d k1 k2 k3 k4 0 = Return (stencil_rows N k1 k2 k4)
  /\ Sp_Matr N d' k1 k2 k3' k4 0 = Sp_Matr N d k1 k2 k3 k4 0.
Proof.
  intros HN. rewrite !Sp_Matr_entries by exact HN. split; reflexivity.
Qed.

Lemma Sp_Matr_without_offset_witness :
  Sp_Matr 4 (-2) 1 1 0 0 0 = Return (stencil_rows 4 1 1 0)
  /\ Sp_Matr 4 5 1 1 9 0 0 = Sp_Matr 4 (-2) 1 1 0 0 0.
Proof.
  apply (@Sp_Matr_without_offset 4 (-2) 1 1 0 0 5 9). lia.
Defined.

(** X2: for every [N >= 2] the stencil [Sp_Matr(N,-2,1,1)] maps the
    all-ones vector to [[1, 2, ..., 2, N]]: every interior entry is [2]. *)
Theorem stencil_times_ones_general (N : nat) :
  (2 <= N)%nat ->
  stencil_times_ones N = Return (1%Z :: repeat 2%Z (N - 2) ++ [Z.of_nat N]).
Proof.
  intros HN. unfold stencil_times_ones.
  rewrite Sp_Matr_entries by exact HN. cbn [rbind].
  rewrite stencil_dot_ones by exact HN. reflexivity.
Qed.

Lemma stencil_times_ones_general_witness :
  stencil_times_ones 7 = Return (1%Z :: repeat 2%Z (7 - 2) ++ [Z.of_nat 7]).
Proof. apply (@stencil_times_ones_general 7). lia. Defined.

(** The stencil needs two nodes. *)
Lemma Sp_Matr_small N d k1 k2 k3 k4 nx :
  (N < 2)%nat ->
  exists msg, Sp_Matr N d k1 k2 k3 k4 nx = Raise (ValueError msg).
Proof.
  intros H. destruct N as [|[|N]]; [eexists; reflexivity | | lia].
  unfold Sp_Matr. cbn [Z.of_nat Pos.of_succ_nat]. 
  rewrite scaled_ones_returns by lia. cbn [rbind].
  change 0%Z with (Z.of_nat 0) at 1.
  rewrite setdiag_upper by (simpl; lia). cbn [rbind].
  rewrite scaled_ones_returns by lia. cbn [rbind].
  unfold setdiag at 1. rewrite assign_run_length, lil_matrix_length.
  eexists; reflexivity.
Qed.

(** X3: the gridded branch of [phaseShift] builds its stencil from the
    number of traces; on a radargram with fewer than two traces it raises
    a [ValueError] (from the stencil) instead of migrating. *)
Theorem phaseShift_gridded_needs_two_traces
    (dat : Radargram) (m : list (list R)) (kx ws : list R)
    (FK : list (list xC)) :
  (tnum dat < 2)%nat ->
  length m = snum dat ->
  (0 < snum dat)%nat ->
  exists msg, phaseShift dat (V2D m) kx ws FK = Raise (ValueError msg).
Proof.
  intros HT L HS. unfold phaseShift, phaseShift_loops.
  rewrite L, Nat.eqb_refl.
  destruct (Nat.ltb_spec 0 (snum dat)); [|lia].
  destruct (@Sp_Matr_small (tnum dat) (-2) 1 1 0 0 0 HT) as [msg ->].
  exists msg. reflexivity.
Qed.

(** A radargram of two samples and one trace, with a velocity per sample
    and trace. *)
Lemma phaseShift_gridded_needs_two_traces_witness :
  exists msg,
    phaseShift dat_two (V2D [[1]; [1]]) [0] [0; 1] [[Some C0]; [Some C0]]
    = Raise (ValueError msg).
Proof.
  apply (@phaseShift_gridded_needs_two_traces dat_two [[1]; [1]] [0] [0; 1]
           [[Some C0]; [Some C0]]); simpl; lia.
Defined.
